(** * rigz: the tree-sitter binding surface

    The repository's C source for its tree-sitter grammar crate is one
    header, [bindings/swift/TreeSitterRigz/rigz.h].  It is embedded here
    line by line: the conditional-inclusion directives that guard it, and
    the two declarations it makes -- the opaque type [TSLanguage] and the
    accessor [tree_sitter_rigz] that hands out the compiled grammar table.

    The header is the whole of the code.  What consumes the table (the
    scanner, the parse engine, the reparser) is described by the
    specification only; the scanner's contract is modelled from its words
    in the second part.  The third part reads the header the way its
    includers meet it: linkage, declaration order, and inclusion from
    anywhere in a translation unit. *)

From Stdlib Require Import ZArith Lia Strings.Byte.
From stdpp Require Import gmap strings list.

(** ** The binding header, [rigz.h] *)

Module Header.

(** C types, as far as the header writes them. *)
Inductive ctype : Type :=
| TVoid
| TStruct (tag : string)
| TName (name : string)
| TConst (t : ctype)
| TPointer (t : ctype).

(** File-scope declarations.  [DStructBody] is a struct definition with
    members; the header contains none, which is what leaves [TSLanguage]
    an incomplete (opaque) type for every includer. *)
Inductive cdecl : Type :=
| DTypedef (t : ctype) (name : string)
| DStructBody (tag : string) (members : list (ctype * string))
| DFunction (ret : ctype) (name : string) (params : list ctype).

(** What a line of program text contributes once the preprocessor lets it
    through: a declaration, or one of the brackets of a linkage
    specification.  The text is kept as the header writes it; macro
    replacement inside it is not modelled (the header's one macro, its
    guard, has an empty body and occurs in no declaration). *)
Inductive text : Type :=
| Declaration (d : cdecl)
| ExternCOpen
| ExternCClose.

(** A source line: a directive, program text, or nothing.  [Include]
    carries the lines of the file it names. *)
#[local] Unset Elimination Schemes.
Inductive line : Type :=
| Ifndef (m : string)
| Ifdef (m : string)
| Define (m : string)
| Undef (m : string)
| Endif
| Include (file : list line)
| Text (t : text)
| Blank.
#[local] Set Elimination Schemes.

Definition guard : string := "TREE_SITTER_RIGZ_H_".
Definition cplusplus : string := "__cplusplus".

(** Line 4: [typedef struct TSLanguage TSLanguage;] *)
Definition TSLanguage_typedef : cdecl :=
  DTypedef (TStruct "TSLanguage") "TSLanguage".

(** Line 10: [const TSLanguage *tree_sitter_rigz(void);] -- a parameter
    list that is just [void] declares a function of no arguments. *)
Definition tree_sitter_rigz : cdecl :=
  DFunction (TPointer (TConst (TName "TSLanguage"))) "tree_sitter_rigz" [].

(** The sixteen lines of [rigz.h], in order. *)
Definition rigz_h : list line :=
  [ Ifndef guard;                       (*  1 *)
    Define guard;                       (*  2 *)
    Blank;                              (*  3 *)
    Text (Declaration TSLanguage_typedef);  (*  4 *)
    Blank;                              (*  5 *)
    Ifdef cplusplus;                    (*  6 *)
    Text ExternCOpen;                   (*  7 *)
    Endif;                              (*  8 *)
    Blank;                              (*  9 *)
    Text (Declaration tree_sitter_rigz);    (* 10 *)
    Blank;                              (* 11 *)
    Ifdef cplusplus;                    (* 12 *)
    Text ExternCClose;                  (* 13 *)
    Endif;                              (* 14 *)
    Blank;                              (* 15 *)
    Endif                               (* 16 *) ].

(** *** Conditional inclusion

    The preprocessor's state while it reads a file: the macros defined so
    far, one flag per conditional open in that file (innermost first)
    telling whether its group is kept, and the text let through so far. *)
Record cpp : Type := Cpp {
  macros : gset string;
  conds : list bool;
  emitted : list text
}.

(** A line is kept when every enclosing conditional is; each flag already
    accounts for the ones outside it, so the innermost decides. *)
Definition active (st : cpp) : bool :=
  match conds st with
  | [] => true
  | b :: _ => b
  end.

Definition open_cond (b : bool) (st : cpp) : cpp :=
  Cpp (macros st) ((active st && b) :: conds st) (emitted st).

(** The end of an included file: a conditional it left open is a
    diagnostic; otherwise the includer goes on with its own conditionals,
    the file's macros and the text so far. *)
Definition close_file (outer : cpp) (st : cpp) : option cpp :=
  match conds st with
  | [] => Some (Cpp (macros st) (conds outer) (emitted st))
  | _ :: _ => None
  end.

(** One line.  [None] is a diagnostic: an [#endif] with no conditional
    open, or one raised inside an included file.  A skipped group has its
    conditionals counted and nothing else done; in particular an
    [#include] in it is not followed. *)
Fixpoint cpp_line (st : cpp) (l : line) {struct l} : option cpp :=
  match l with
  | Ifndef m => Some (open_cond (bool_decide (m ∉ macros st)) st)
  | Ifdef m => Some (open_cond (bool_decide (m ∈ macros st)) st)
  | Define m =>
      Some (if active st
            then Cpp ({[ m ]} ∪ macros st) (conds st) (emitted st)
            else st)
  | Undef m =>
      Some (if active st
            then Cpp (macros st ∖ {[ m ]}) (conds st) (emitted st)
            else st)
  | Endif =>
      match conds st with
      | [] => None
      | _ :: cs => Some (Cpp (macros st) cs (emitted st))
      end
  | Include file =>
      if active st then
        match
          (fix lines (st0 : cpp) (ls : list line) {struct ls} : option cpp :=
             match ls with
             | [] => Some st0
             | l' :: ls' =>
                 match cpp_line st0 l' with
                 | Some st1 => lines st1 ls'
                 | None => None
                 end
             end) (Cpp (macros st) [] (emitted st)) file
        with
        | Some st' => close_file st st'
        | None => None
        end
      else Some st
  | Text t =>
      Some (if active st
            then Cpp (macros st) (conds st) (emitted st ++ [t])
            else st)
  | Blank => Some st
  end.

(** The lines of a file, one after the other. *)
Fixpoint cpp_lines (st : cpp) (ls : list line) : option cpp :=
  match ls with
  | [] => Some st
  | l :: ls' =>
      match cpp_line st l with
      | Some st' => cpp_lines st' ls'
      | None => None
      end
  end.

(** A translation unit preprocessed under the macros [ms]: the macros
    defined at its end and its text. *)
Definition preprocess (ms : gset string) (tu : list line)
  : option (gset string * list text) :=
  match cpp_lines (Cpp ms [] []) tu with
  | Some st =>
      match conds st with
      | [] => Some (macros st, emitted st)
      | _ :: _ => None
      end
  | None => None
  end.

(** A translation unit that is [n] inclusions of the same file. *)
Definition include_times (n : nat) (file : list line) : list line :=
  replicate n (Include file).

(** Does the line, or a file it includes, have an [#undef] of [m]? *)
Fixpoint undefines (m : string) (l : line) {struct l} : bool :=
  match l with
  | Undef m' => bool_decide (m' = m)
  | Include file => existsb (undefines m) file
  | _ => false
  end.

(** *** Reading the declarations back *)

Definition declarations (out : list text) : list cdecl :=
  omap (λ t, match t with Declaration d => Some d | _ => None end) out.

Definition is_function (d : cdecl) : bool :=
  match d with DFunction _ _ _ => true | _ => false end.

Definition functions (out : list text) : list cdecl :=
  filter (λ d, is_function d = true) (declarations out).

(** Is this the grammar-table type itself, unqualified? *)
Definition is_table (t : ctype) : bool :=
  match t with
  | TStruct tag => bool_decide (tag = "TSLanguage")
  | TName n => bool_decide (n = "TSLanguage")
  | _ => false
  end.

(** Does a value of this type let its holder write to a grammar table?
    Only if, somewhere along it, there is a pointer whose pointee is the
    table type without [const]. *)
Fixpoint grants_write (t : ctype) : bool :=
  match t with
  | TPointer t' => is_table t' || grants_write t'
  | TConst t' => grants_write t'
  | _ => false
  end.

(** A function can reach a table to mutate it only through an argument or
    a result that grants write access. *)
Definition can_mutate_table (d : cdecl) : bool :=
  match d with
  | DFunction ret _ params => grants_write ret || existsb grants_write params
  | _ => false
  end.

(** A struct tag is complete when some declaration gives its members. *)
Definition is_complete (tag : string) (ds : list cdecl) : bool :=
  existsb (λ d, match d with
                | DStructBody tag' _ => bool_decide (tag' = tag)
                | _ => false
                end) ds.

(** The text one inclusion of [rigz.h] lets through when its guard is not
    yet defined; the linkage brackets appear for a C++ includer. *)
Definition rigz_text (cxx : bool) : list text :=
  if cxx
  then [Declaration TSLanguage_typedef; ExternCOpen;
        Declaration tree_sitter_rigz; ExternCClose]
  else [Declaration TSLanguage_typedef; Declaration tree_sitter_rigz].

(** What [rigz.h] lets through under the macros [ms]: nothing when its
    guard is already defined. *)
Definition rigz_out (ms : gset string) : list text :=
  if bool_decide (guard ∈ ms) then []
  else rigz_text (bool_decide (cplusplus ∈ ms)).

End Header.

(** ** The scanner behind the table

    The table [tree_sitter_rigz] returns is consumed by a scanner and a
    parse engine that are not in [rigz.h], nor declared by it.  The
    scanner's contract is stated completely by section 4.1 of the
    specification, and is modelled here from those words; each definition
    cites the sentence it follows. *)

Module Scanner.

Definition Symbol : Type := nat.
Definition State : Type := nat.
Definition RuleId : Type := nat.

(** Modelled from the spec: the symbol of the "synthetic ERROR token" of
    section 4.1; the scanner and the symbol table are missing from the
    sources.  Id 0 stands for the end of input and 1 for [ERROR]. *)
Definition ERROR : Symbol := 1.

Inductive SymbolKind : Type := Terminal | NonTerminal | Auxiliary.

(** Modelled from the spec: "Symbol: ... a numeric id (stable across a
    grammar version), a display name, and a kind flag"; the symbol table
    is missing from the sources. *)
Record SymbolInfo : Type := {
  sym_id : Symbol;
  sym_name : string;
  sym_kind : SymbolKind
}.

Inductive Assoc : Type := NoAssoc | LeftAssoc | RightAssoc.

(** Modelled from the spec: "each rule: left-hand symbol, ordered
    sequence of right-hand symbols, precedence, associativity"; the rule
    set is missing from the sources. *)
Record Rule : Type := {
  rule_lhs : Symbol;
  rule_rhs : list Symbol;
  rule_prec : Z;
  rule_assoc : Assoc
}.

(** Modelled from the spec: "(state, symbol) -> {shift(state),
    reduce(rule), accept, error}"; the parse-action table is missing from
    the sources. *)
Inductive Action : Type :=
| Shift (s : State)
| Reduce (r : RuleId)
| Accept
| Error.

(** Modelled from the spec: a rule of "the grammar's token rules"; the
    token table is missing from the sources.  [tok_accepts] decides
    whether a byte string is an instance of the token, [tok_priority] is
    the "rule priority" of section 4.1, and the position in the table is
    the declaration order. *)
Record TokenRule : Type := {
  tok_symbol : Symbol;
  tok_priority : Z;
  tok_accepts : list byte → bool
}.

(** Modelled from the spec: "Grammar Table: ... symbol set,
    state-transition table mapping (state, symbol) -> ..., rule set"
    together with the token table the scanner reads; the compiled table
    is missing from the sources.  A pair the transition table does not map
    is the error action.  The optional external-scanner hooks are left
    out. *)
Record GrammarTable : Type := {
  gt_symbols : list SymbolInfo;
  gt_rules : list Rule;
  gt_tokens : list TokenRule;
  gt_actions : gmap (State * Symbol) Action
}.

(** Modelled from the spec: "every (state, symbol) pair not explicitly
    mapped resolves to a defined error-recovery action"; the table lookup
    is missing from the sources. *)
Definition action (G : GrammarTable) (s : State) (x : Symbol) : Action :=
  default Error (gt_actions G !! (s, x)).

(** Modelled from the spec: "the grammar's token rules valid in the
    current automaton state (the valid-symbol set, supplied by the Parse
    Engine per step)"; the engine is missing from the sources.  A symbol
    is valid in a state when the table has an action for it there. *)
Definition valid_in (G : GrammarTable) (s : State) (x : Symbol) : bool :=
  match action G s x with
  | Error => false
  | _ => true
  end.

(** Modelled from the spec: "Token: a symbol id plus a half-open byte
    range [start, end)"; the token type is missing from the sources.
    Row/column positions are left out: the specification leaves their
    encoding convention open. *)
Record Token : Type := {
  token_symbol : Symbol;
  token_start : nat;
  token_end : nat
}.

(** [token_match r input pos n]: the [n] bytes of [input] from [pos] on,
    at least one and all inside the input, are an instance of the token
    [r].  This is what "a token match starting at that position" means,
    said without reference to how the scanner finds it. *)
Definition token_match (r : TokenRule) (input : list byte) (pos n : nat)
  : Prop :=
  1 ≤ n ∧ pos + n ≤ length input
  ∧ tok_accepts r (take n (drop pos input)) = true.

(** The longest prefix of [rest], among those of length [n] down to 1,
    that the token accepts. *)
Fixpoint longest_prefix (accepts : list byte → bool) (rest : list byte)
    (n : nat) : option nat :=
  match n with
  | 0 => None
  | S k =>
      if accepts (take (S k) rest) then Some (S k)
      else longest_prefix accepts rest k
  end.

Definition rule_match (r : TokenRule) (rest : list byte) : option nat :=
  longest_prefix (tok_accepts r) rest (length rest).

(** A candidate match: its length, and the priority, declaration index
    and symbol of the rule it comes from. *)
Record Match : Type := {
  m_len : nat;
  m_priority : Z;
  m_index : nat;
  m_symbol : Symbol
}.

(** [outranks a b]: [a] is longer, or as long with a higher priority. *)
Definition outranks (a b : Match) : bool :=
  (m_len b <? m_len a)
  || ((m_len a =? m_len b) && (m_priority b <? m_priority a)%Z).

(** Walk the token table in declaration order, keeping the best match so
    far; a later rule replaces it only when it outranks it, so of two
    matches of equal length and priority the earlier-declared stays. *)
Fixpoint best_match (valid : Symbol → bool) (rest : list byte) (i : nat)
    (rules : list TokenRule) (best : option Match) : option Match :=
  match rules with
  | [] => best
  | r :: rules' =>
      let best' :=
        if valid (tok_symbol r) then
          match rule_match r rest with
          | Some n =>
              let m := {| m_len := n; m_priority := tok_priority r;
                          m_index := i; m_symbol := tok_symbol r |} in
              match best with
              | Some b => if outranks m b then Some m else best
              | None => Some m
              end
          | None => best
          end
        else best in
      best_match valid rest (S i) rules' best'
  end.

(** Modelled from the spec: the Scanner of section 4.1, which is missing
    from the sources.  "given a byte cursor position and the grammar's
    token rules valid in the current automaton state ..., return the
    longest token match starting at that position among rules applicable
    in that set, breaking ties by rule priority then by earliest-declared
    rule"; "if no token matches, emits a synthetic ERROR token of length 1
    ... and advances by that amount".  The second component is the cursor
    after the call ("Side effect: advances the byte cursor"). *)
Definition scan (G : GrammarTable) (valid : Symbol → bool)
    (input : list byte) (pos : nat) : Token * nat :=
  match best_match valid (drop pos input) 0 (gt_tokens G) None with
  | Some m =>
      ({| token_symbol := m_symbol m; token_start := pos;
          token_end := pos + m_len m |}, pos + m_len m)
  | None =>
      ({| token_symbol := ERROR; token_start := pos;
          token_end := pos + 1 |}, pos + 1)
  end.

(** What the walk over the token table maintains: [best] is the rule of
    the table prefix [pre] that the contract asks for, for the bytes
    [rest] ahead of the cursor. *)
Definition best_of (valid : Symbol → bool) (rest : list byte)
    (pre : list TokenRule) (best : option Match) : Prop :=
  match best with
  | None =>
      ∀ j r n, pre !! j = Some r → valid (tok_symbol r) = true →
               token_match r rest 0 n → False
  | Some m =>
      (∃ r, pre !! m_index m = Some r ∧ valid (tok_symbol r) = true
            ∧ m_symbol m = tok_symbol r ∧ m_priority m = tok_priority r
            ∧ token_match r rest 0 (m_len m))
      ∧ ∀ j r n, pre !! j = Some r → valid (tok_symbol r) = true →
                 token_match r rest 0 n →
                 n ≤ m_len m
                 ∧ (n = m_len m →
                    (tok_priority r ≤ m_priority m)%Z
                    ∧ (tok_priority r = m_priority m → m_index m ≤ j))
  end.

End Scanner.

(** ** A token table to run the scanner on *)

Module Sample.
Import Scanner.

Definition NUMBER : Symbol := 2.
Definition PLUS : Symbol := 3.
Definition INCREMENT : Symbol := 4.
Definition WORD : Symbol := 5.
Definition KEYWORD_IF : Symbol := 6.

Definition is_digit (b : byte) : bool :=
  let n := Byte.to_N b in ((48 <=? n) && (n <=? 57))%N.

Definition is_lower (b : byte) : bool :=
  let n := Byte.to_N b in ((97 <=? n) && (n <=? 122))%N.

Definition nonempty_all (p : byte → bool) (w : list byte) : bool :=
  match w with
  | [] => false
  | _ :: _ => forallb p w
  end.

Definition exactly (s : string) (w : list byte) : bool :=
  bool_decide (Byte.to_N <$> w = Byte.to_N <$> String.list_byte_of_string s).

(** Numbers, [+] and [++], lower-case words, and the keyword [if], which
    is declared after the words it is also an instance of and is given a
    higher priority. *)
Definition tokens : list TokenRule :=
  [ {| tok_symbol := NUMBER; tok_priority := 0;
       tok_accepts := nonempty_all is_digit |};
    {| tok_symbol := PLUS; tok_priority := 0; tok_accepts := exactly "+" |};
    {| tok_symbol := INCREMENT; tok_priority := 0;
       tok_accepts := exactly "++" |};
    {| tok_symbol := WORD; tok_priority := 0;
       tok_accepts := nonempty_all is_lower |};
    {| tok_symbol := KEYWORD_IF; tok_priority := 1;
       tok_accepts := exactly "if" |} ].

Definition table : GrammarTable :=
  {| gt_symbols := [];
     gt_rules := [];
     gt_tokens := tokens;
     gt_actions := ∅ |}.

Definition everything : Symbol → bool := λ _, true.

Definition bytes (s : string) : list byte := String.list_byte_of_string s.

End Sample.

(** ** The header as its includers see it

    Notions an includer of [rigz.h] cares about, read off the text the
    preprocessor lets through: which declarations stand inside a C linkage
    specification, whether every type name is declared before it is used,
    and how often a declaration occurs. *)

Module Usage.
Import Header.

#[global] Instance ctype_eq_dec : EqDecision ctype.
Proof. solve_decision. Defined.

#[global] Instance cdecl_eq_dec : EqDecision cdecl.
Proof. solve_decision. Defined.

#[global] Instance text_eq_dec : EqDecision text.
Proof. solve_decision. Defined.

(** Equality of lines is decidable; the lines of an included file are
    compared one by one. *)
Definition line_eq_dec : ∀ l1 l2 : line, Decision (l1 = l2).
Proof.
  fix compare 1. intros l1 l2. unfold Decision.
  destruct l1 as [m1 | m1 | m1 | m1 | | f1 | t1 |],
           l2 as [m2 | m2 | m2 | m2 | | f2 | t2 |];
    try (right; discriminate); try (left; reflexivity).
  - destruct (decide (m1 = m2)); [left | right]; congruence.
  - destruct (decide (m1 = m2)); [left | right]; congruence.
  - destruct (decide (m1 = m2)); [left | right]; congruence.
  - destruct (decide (m1 = m2)); [left | right]; congruence.
  - destruct (list_eq_dec (dec := compare) f1 f2); [left | right]; congruence.
  - destruct (decide (t1 = t2)); [left | right]; congruence.
Defined.

#[global] Instance line_eq_decision : EqDecision line := line_eq_dec.

(** *** Linkage

    The declarations of a text, left to right, each with the number of
    [extern "C"] brackets open around it; a closing bracket with none open
    is ignored here and reported by [brackets_balanced]. *)
Fixpoint linkage_from (depth : nat) (out : list text)
  : list (cdecl * nat) :=
  match out with
  | [] => []
  | Declaration d :: out' => (d, depth) :: linkage_from depth out'
  | ExternCOpen :: out' => linkage_from (S depth) out'
  | ExternCClose :: out' => linkage_from (pred depth) out'
  end.

Definition linkage (out : list text) : list (cdecl * nat) :=
  linkage_from 0 out.

(** Every closing bracket closes an open one, and none stays open. *)
Fixpoint balanced_from (depth : nat) (out : list text) : bool :=
  match out with
  | [] => depth =? 0
  | Declaration _ :: out' => balanced_from depth out'
  | ExternCOpen :: out' => balanced_from (S depth) out'
  | ExternCClose :: out' =>
      match depth with
      | 0 => false
      | S depth' => balanced_from depth' out'
      end
  end.

Definition brackets_balanced (out : list text) : bool :=
  balanced_from 0 out.

Definition is_bracket (t : text) : bool :=
  match t with
  | Declaration _ => false
  | ExternCOpen | ExternCClose => true
  end.

(** *** Declaration before use *)

(** The typedef names a type is written with.  A [struct] tag needs no
    earlier declaration: naming it declares it. *)
Fixpoint type_names (t : ctype) : list string :=
  match t with
  | TName n => [n]
  | TConst t' | TPointer t' => type_names t'
  | TVoid | TStruct _ => []
  end.

Definition names_used (d : cdecl) : list string :=
  match d with
  | DTypedef t _ => type_names t
  | DStructBody _ members => flat_map (λ m, type_names m.1) members
  | DFunction ret _ params => type_names ret ++ flat_map type_names params
  end.

Definition names_declared (d : cdecl) : list string :=
  match d with
  | DTypedef _ n => [n]
  | _ => []
  end.

(** [declared_before_use known ds]: reading [ds] in order, every typedef
    name a declaration uses is among [known] or was declared by an earlier
    one. *)
Fixpoint declared_before_use (known : list string) (ds : list cdecl)
  : bool :=
  match ds with
  | [] => true
  | d :: ds' =>
      forallb (λ n, bool_decide (n ∈ known)) (names_used d)
      && declared_before_use (names_declared d ++ known) ds'
  end.

(** *** Translation units that leave the header alone *)

(** How often the declaration [d] occurs in a text. *)
Definition occurrences (d : cdecl) (out : list text) : nat :=
  length (filter (λ t, t = Declaration d) out).

(** A line of a translation unit that keeps off what belongs to
    [rigz.h]: it neither defines nor undefines the guard and does not
    itself write one of the header's two declarations.  It may include
    [rigz.h], and other files whose lines keep off in turn. *)
Fixpoint keeps_off (l : line) {struct l} : bool :=
  match l with
  | Define m | Undef m => bool_decide (m ≠ guard)
  | Text t =>
      bool_decide (t ≠ Declaration TSLanguage_typedef
                   ∧ t ≠ Declaration tree_sitter_rigz)
  | Include file => bool_decide (file = rigz_h) || forallb keeps_off file
  | Ifndef _ | Ifdef _ | Endif | Blank => true
  end.

(** What a state of the preprocessor shows of the header: each of its two
    declarations has come out once if the guard is defined, and not at all
    otherwise. *)
Definition guard_tracks (st : cpp) : Prop :=
  ∀ d, d = TSLanguage_typedef ∨ d = tree_sitter_rigz →
       occurrences d (emitted st)
       = if bool_decide (guard ∈ macros st) then 1 else 0.

(** A translation unit to try this on: it includes a header of its own
    that includes [rigz.h], then [rigz.h] itself inside a conditional
    group, then once more at the end. *)
Definition other_h : list line :=
  [ Ifndef "OTHER_H"; Define "OTHER_H"; Include rigz_h;
    Text (Declaration (DFunction TVoid "other" [])); Endif ].

Definition sample_unit : list line :=
  [ Include other_h; Ifdef "OTHER_H"; Include rigz_h; Endif;
    Include rigz_h ].

End Usage.

(** * Facts about the binding header *)

Section HeaderFacts.
Import Header.

(** Induction on a line, with the property available for the lines of an
    included file. *)
Lemma line_induction (P : line → Prop) :
  (∀ m, P (Ifndef m)) → (∀ m, P (Ifdef m)) → (∀ m, P (Define m)) →
  (∀ m, P (Undef m)) → P Endif →
  (∀ file, Forall P file → P (Include file)) →
  (∀ t, P (Text t)) → P Blank →
  ∀ l, P l.
Proof.
  intros Hifndef Hifdef Hdefine Hundef Hendif Hinclude Htext Hblank.
  fix IH 1.
  intros [m | m | m | m | | file | t |];
    [apply Hifndef | apply Hifdef | apply Hdefine | apply Hundef
    | exact Hendif | | apply Htext | exact Hblank].
  apply Hinclude. induction file as [| l file IHfile]; constructor;
    [apply IH | exact IHfile].
Qed.

(** An [#include] in a kept group reads the file with a conditional stack
    of its own. *)
Lemma cpp_line_include (st : cpp) (file : list line) :
  cpp_line st (Include file)
  = if active st then
      match cpp_lines (Cpp (macros st) [] (emitted st)) file with
      | Some st' => close_file st st'
      | None => None
      end
    else Some st.
Proof.
  destruct (active st) eqn:Hact; cbn [cpp_line]; rewrite Hact; reflexivity.
Qed.

(** [rigz.h] read under a defined guard: nothing happens. *)
Lemma rigz_h_guarded (ms : gset string) (out : list text) :
  guard ∈ ms → cpp_lines (Cpp ms [] out) rigz_h = Some (Cpp ms [] out).
Proof.
  intros Hin. unfold rigz_h. cbn.
  rewrite (bool_decide_eq_false_2 (guard ∉ ms)) by (intros Hn; exact (Hn Hin)).
  reflexivity.
Qed.

(** [rigz.h] read under an undefined guard: the guard is defined and the
    two declarations are let through, inside the linkage brackets when
    [__cplusplus] is defined. *)
Lemma rigz_h_fresh (ms : gset string) (out : list text) :
  guard ∉ ms →
  cpp_lines (Cpp ms [] out) rigz_h
  = Some (Cpp ({[ guard ]} ∪ ms) []
              (out ++ rigz_text (bool_decide (cplusplus ∈ ms)))).
Proof.
  intros Hnin. unfold rigz_h. cbn.
  rewrite (bool_decide_eq_true_2 (guard ∉ ms)) by exact Hnin. cbn.
  assert (Hcxx : bool_decide (cplusplus ∈ {[guard]} ∪ ms)
                 = bool_decide (cplusplus ∈ ms)).
  { apply bool_decide_ext. rewrite elem_of_union, elem_of_singleton.
    split; [intros [Heq | H]; [discriminate Heq | exact H] | auto]. }
  destruct (bool_decide (cplusplus ∈ ms));
    repeat (rewrite Hcxx; cbn); rewrite <- ?app_assoc; reflexivity.
Qed.

Lemma guard_union (ms : gset string) : guard ∈ ms → {[ guard ]} ∪ ms = ms.
Proof.
  intros Hin. apply set_eq. intros x.
  rewrite elem_of_union, elem_of_singleton. split; [| auto].
  intros [-> | Hx]; assumption.
Qed.

(** [rigz.h] read under any macros. *)
Lemma rigz_h_lines (ms : gset string) (out : list text) :
  cpp_lines (Cpp ms [] out) rigz_h
  = Some (Cpp ({[ guard ]} ∪ ms) [] (out ++ rigz_out ms)).
Proof.
  unfold rigz_out. destruct (decide (guard ∈ ms)) as [Hin | Hnin].
  - rewrite (bool_decide_eq_true_2 _ Hin), app_nil_r, (guard_union ms Hin).
    apply rigz_h_guarded, Hin.
  - rewrite (bool_decide_eq_false_2 _ Hnin). apply rigz_h_fresh, Hnin.
Qed.

(** One [#include] of [rigz.h] in a kept group. *)
Lemma include_rigz_h (st : cpp) :
  active st = true →
  cpp_line st (Include rigz_h)
  = Some (Cpp ({[ guard ]} ∪ macros st) (conds st)
              (emitted st ++ rigz_out (macros st))).
Proof.
  intros Hact. rewrite cpp_line_include, Hact, rigz_h_lines. reflexivity.
Qed.

(** Once the guard is defined, an [#include] of [rigz.h] changes nothing,
    in a kept group or a skipped one. *)
Lemma include_rigz_h_again (st : cpp) :
  guard ∈ macros st → cpp_line st (Include rigz_h) = Some st.
Proof.
  intros Hin. rewrite cpp_line_include.
  destruct (active st); [| reflexivity].
  rewrite rigz_h_guarded by exact Hin. destruct st; reflexivity.
Qed.

(** A macro stays defined across lines that have no [#undef] of it. *)
Lemma cpp_line_keeps (m : string) (l : line) :
  ∀ st st', undefines m l = false → cpp_line st l = Some st' →
            m ∈ macros st → m ∈ macros st'.
Proof.
  induction l as [m' | m' | m' | m' | | file IH | t |] using line_induction;
    intros st st' Hno Hstep Hin.
  - injection Hstep as <-. exact Hin.
  - injection Hstep as <-. exact Hin.
  - injection Hstep as <-. destruct (active st); [| exact Hin].
    apply elem_of_union_r, Hin.
  - cbn in Hno. apply bool_decide_eq_false in Hno.
    injection Hstep as <-. destruct (active st); [| exact Hin].
    apply elem_of_difference. split; [exact Hin |].
    rewrite elem_of_singleton. congruence.
  - cbn in Hstep. destruct (conds st); [discriminate |].
    injection Hstep as <-. exact Hin.
  - rewrite cpp_line_include in Hstep. destruct (active st);
      [| injection Hstep as <-; exact Hin].
    destruct (cpp_lines _ file) as [st1 |] eqn:Hfile; [| discriminate].
    assert (Hin1 : m ∈ macros st1).
    { cbn [undefines] in Hno. revert Hno Hfile.
      generalize (Cpp (macros st) [] (emitted st)) (Hin : m ∈ macros (Cpp (macros st) [] (emitted st))).
      induction IH as [| l file Hl _ IHfile]; intros st0 Hin0 Hno Hfile.
      - injection Hfile as <-. exact Hin0.
      - cbn in Hno. apply orb_false_iff in Hno as [Hno_l Hno_file].
        cbn [cpp_lines] in Hfile.
        destruct (cpp_line st0 l) as [st0' |] eqn:Hl0; [| discriminate].
        exact (IHfile st0' (Hl st0 st0' Hno_l Hl0 Hin0) Hno_file Hfile). }
    unfold close_file in Hstep. destruct (conds st1); [| discriminate].
    injection Hstep as <-. exact Hin1.
  - injection Hstep as <-. destruct (active st); exact Hin.
  - injection Hstep as <-. exact Hin.
Qed.

Lemma cpp_lines_keep (m : string) (ls : list line) :
  ∀ st st', existsb (undefines m) ls = false → cpp_lines st ls = Some st' →
            m ∈ macros st → m ∈ macros st'.
Proof.
  induction ls as [| l ls IH]; intros st st' Hno Hrun Hin.
  - injection Hrun as <-. exact Hin.
  - cbn in Hno. apply orb_false_iff in Hno as [Hno_l Hno_ls].
    cbn [cpp_lines] in Hrun.
    destruct (cpp_line st l) as [st1 |] eqn:Hl; [| discriminate].
    exact (IH st1 st' Hno_ls Hrun (cpp_line_keeps m l st st1 Hno_l Hl Hin)).
Qed.

(** After an inclusion in a kept group, and any lines that do not undefine
    the guard, one more inclusion changes nothing. *)
Lemma include_rigz_h_later (st st1 st2 : cpp) (between : list line) :
  active st = true →
  cpp_line st (Include rigz_h) = Some st1 →
  existsb (undefines guard) between = false →
  cpp_lines st1 between = Some st2 →
  cpp_line st2 (Include rigz_h) = Some st2.
Proof.
  intros Hact Hfirst Hno Hrun. apply include_rigz_h_again.
  apply (cpp_lines_keep guard between st1 st2 Hno Hrun).
  rewrite include_rigz_h in Hfirst by exact Hact. injection Hfirst as <-.
  apply elem_of_union_l, elem_of_singleton. reflexivity.
Qed.

Lemma cpp_lines_again (n : nat) (st : cpp) :
  guard ∈ macros st → cpp_lines st (include_times n rigz_h) = Some st.
Proof.
  intros Hin. induction n as [| n IH]; [reflexivity |].
  unfold include_times in *. cbn [replicate cpp_lines].
  rewrite include_rigz_h_again by exact Hin. exact IH.
Qed.

(** A translation unit that includes [rigz.h] one or more times. *)
Lemma preprocess_rigz_h (n : nat) (ms : gset string) :
  preprocess ms (include_times (S n) rigz_h)
  = Some ({[ guard ]} ∪ ms, rigz_out ms).
Proof.
  unfold preprocess, include_times. cbn [replicate cpp_lines].
  rewrite include_rigz_h by reflexivity. cbn [macros conds emitted].
  fold (include_times n rigz_h). rewrite cpp_lines_again.
  - reflexivity.
  - apply elem_of_union_l, elem_of_singleton. reflexivity.
Qed.

Lemma rigz_text_declarations (cxx : bool) :
  declarations (rigz_text cxx) = [TSLanguage_typedef; tree_sitter_rigz].
Proof. destruct cxx; reflexivity. Qed.

(** C10.  A translation unit that includes [rigz.h] any number of times,
    at least once, is preprocessed exactly as one that includes it once,
    whatever macros are predefined: the same text comes out and the same
    macros are defined at the end.  That text is empty when the guard was
    predefined; otherwise its declarations are the [TSLanguage] typedef and
    the [tree_sitter_rigz] prototype, each once, so nothing is declared
    twice.  Nor do the inclusions have to follow one another: after one
    inclusion in a kept group, and any lines that do not undefine the guard,
    an inclusion changes neither the macros nor the text. *)
Theorem include_guard_idempotent (n : nat) (ms : gset string) :
  preprocess ms (include_times (S n) rigz_h)
  = preprocess ms (include_times 1 rigz_h)
  ∧ preprocess ms (include_times 1 rigz_h)
    = Some ({[ guard ]} ∪ ms, rigz_out ms)
  ∧ declarations (rigz_out ms)
    = (if bool_decide (guard ∈ ms) then []
       else [TSLanguage_typedef; tree_sitter_rigz])
  ∧ NoDup (declarations (rigz_out ms))
  ∧ ∀ (st st1 st2 : cpp) (between : list line),
      active st = true →
      cpp_line st (Include rigz_h) = Some st1 →
      existsb (undefines guard) between = false →
      cpp_lines st1 between = Some st2 →
      cpp_line st2 (Include rigz_h) = Some st2.
Proof.
  rewrite !preprocess_rigz_h. split; [reflexivity |]. split; [reflexivity |].
  assert (Hdecls : declarations (rigz_out ms)
                   = if bool_decide (guard ∈ ms) then []
                     else [TSLanguage_typedef; tree_sitter_rigz]).
  { unfold rigz_out. destruct (bool_decide (guard ∈ ms)); [reflexivity |].
    apply rigz_text_declarations. }
  split; [exact Hdecls |]. split; [| exact include_rigz_h_later].
  rewrite Hdecls. destruct (bool_decide (guard ∈ ms)); [constructor |].
  apply NoDup_cons. split; [| apply NoDup_singleton].
  intros Hin. apply list_elem_of_singleton in Hin. discriminate Hin.
Qed.

(** The statement at work: three inclusions in a row under no predefined
    macro, and a fourth one after a conditional group and a declaration of
    the includer's own. *)
Lemma include_guard_idempotent_witness :
  preprocess ∅ (include_times 3 rigz_h)
  = Some ({[ guard ]} ∪ ∅,
          [Declaration TSLanguage_typedef; Declaration tree_sitter_rigz])
  ∧ ∃ st2,
      cpp_lines (Cpp ∅ [] [])
        [Include rigz_h; Ifdef "NDEBUG"; Define "QUIET"; Endif;
         Text (Declaration (DFunction TVoid "main" []))] = Some st2
      ∧ cpp_line st2 (Include rigz_h) = Some st2.
Proof.
  destruct (include_guard_idempotent 2 ∅) as (Hmany & Honce & _ & _ & Hlater).
  split.
  - rewrite Hmany, Honce. vm_compute. reflexivity.
  - eexists. split; [vm_compute; reflexivity |].
    eapply (Hlater (Cpp ∅ [] []) _ _
              [Ifdef "NDEBUG"; Define "QUIET"; Endif;
               Text (Declaration (DFunction TVoid "main" []))]).
    + vm_compute. reflexivity.
    + vm_compute. reflexivity.
    + vm_compute. reflexivity.
    + vm_compute. reflexivity.
Defined.

(** C9.  Whatever macros are predefined and however often the header is
    included, every function it declares is [tree_sitter_rigz], of no
    arguments and returning a pointer to [const TSLanguage]; no
    declaration it makes gives write access to a grammar table; and
    [TSLanguage] stays an incomplete type, so no member of a table can be
    named.  Under an undefined guard exactly that one function is
    declared. *)
Theorem binding_surface_read_only (n : nat) (ms : gset string) :
  ∃ ms' out,
    preprocess ms (include_times (S n) rigz_h) = Some (ms', out)
    ∧ Forall (λ d, d = DFunction (TPointer (TConst (TName "TSLanguage")))
                                 "tree_sitter_rigz" [])
             (functions out)
    ∧ Forall (λ d, can_mutate_table d = false) (declarations out)
    ∧ is_complete "TSLanguage" (declarations out) = false
    ∧ functions out
      = (if bool_decide (guard ∈ ms) then [] else [tree_sitter_rigz]).
Proof.
  exists ({[ guard ]} ∪ ms), (rigz_out ms).
  split; [apply preprocess_rigz_h |].
  unfold rigz_out. destruct (bool_decide (guard ∈ ms)).
  - repeat split; constructor.
  - destruct (bool_decide (cplusplus ∈ ms)); cbn;
      repeat split; repeat constructor.
Qed.

End HeaderFacts.

(** * Facts about the header as its includers see it *)

Section UsageFacts.
Import Header Usage.

(** X1.  For a C++ includer the accessor is declared with C linkage, so its
    name is the unmangled [tree_sitter_rigz] the grammar's object file
    exports; for a C includer no linkage bracket comes out at all.
    Whatever macros are predefined and however often the header is
    included: the brackets that come out are balanced; the typedef stands
    outside them and the accessor inside exactly one pair when
    [__cplusplus] is defined, and outside any otherwise; and a bracket
    comes out only when [__cplusplus] is defined and the guard is not. *)
Theorem accessor_has_c_linkage (n : nat) (ms : gset string) :
  ∃ ms' out,
    preprocess ms (include_times (S n) rigz_h) = Some (ms', out)
    ∧ brackets_balanced out = true
    ∧ linkage out
      = (if bool_decide (guard ∈ ms) then []
         else [(TSLanguage_typedef, 0);
               (tree_sitter_rigz,
                if bool_decide (cplusplus ∈ ms) then 1 else 0)])
    ∧ existsb is_bracket out
      = bool_decide (cplusplus ∈ ms) && negb (bool_decide (guard ∈ ms)).
Proof.
  exists ({[ guard ]} ∪ ms), (rigz_out ms).
  split; [apply preprocess_rigz_h |]. unfold rigz_out.
  destruct (bool_decide (guard ∈ ms)), (bool_decide (cplusplus ∈ ms));
    repeat split; reflexivity.
Qed.

Lemma declared_before_use_rigz (cxx : bool) (known : list string) :
  declared_before_use known (declarations (rigz_text cxx)) = true.
Proof.
  rewrite rigz_text_declarations. cbn.
  rewrite bool_decide_eq_true_2 by (apply elem_of_cons; left; reflexivity).
  reflexivity.
Qed.

(** X2.  The header stands on its own: it can be the first thing a
    translation unit includes.  The one typedef name its prototype is
    written with, [TSLanguage], is declared by its own line 4 before line
    10 uses it, whatever names the includer has or has not declared
    before.  The order of the two lines matters: read the other way
    round, and with nothing declared before, the prototype would use a
    name not yet declared. *)
Theorem header_is_self_contained (n : nat) (ms : gset string)
    (known : list string) :
  ∃ ms' out,
    preprocess ms (include_times (S n) rigz_h) = Some (ms', out)
    ∧ declared_before_use known (declarations out) = true
    ∧ (bool_decide (guard ∈ ms) = false →
       declared_before_use [] (reverse (declarations out)) = false).
Proof.
  exists ({[ guard ]} ∪ ms), (rigz_out ms).
  split; [apply preprocess_rigz_h |]. unfold rigz_out.
  destruct (bool_decide (guard ∈ ms)).
  - split; [reflexivity | discriminate].
  - split; [apply declared_before_use_rigz |]. intros _.
    rewrite rigz_text_declarations. reflexivity.
Qed.

(** The statement at work, for a C++ includer with nothing predefined but
    [__cplusplus]. *)
Lemma header_is_self_contained_witness :
  ∃ ms' out,
    preprocess {[ cplusplus ]} (include_times 2 rigz_h) = Some (ms', out)
    ∧ declared_before_use [] (declarations out) = true
    ∧ declared_before_use [] (reverse (declarations out)) = false.
Proof.
  destruct (header_is_self_contained 1 {[ cplusplus ]} [])
    as (ms' & out & Hrun & Hok & Hswapped).
  exists ms', out. split; [exact Hrun |]. split; [exact Hok |].
  apply Hswapped. vm_compute. reflexivity.
Defined.

(** X4.  One inclusion, in any state of the includer: no diagnostic is raised;
    the includer's open conditionals are as they were; the text so far is
    kept, the header's being added after it; no macro is undefined, and
    none is defined but the guard -- and in a skipped group not even
    that. *)
Theorem inclusion_is_hygienic (st : cpp) :
  ∃ st',
    cpp_line st (Include rigz_h) = Some st'
    ∧ conds st' = conds st
    ∧ macros st'
      = (if active st then {[ guard ]} ∪ macros st else macros st)
    ∧ emitted st'
      = emitted st ++ (if active st then rigz_out (macros st) else []).
Proof.
  destruct (active st) eqn:Hact.
  - eexists. split; [apply include_rigz_h, Hact |]. cbn. auto.
  - exists st. rewrite cpp_line_include, Hact, app_nil_r. auto.
Qed.

(** *** Any translation unit that leaves the header alone *)

Lemma occurrences_app (d : cdecl) (a b : list text) :
  occurrences d (a ++ b) = occurrences d a + occurrences d b.
Proof. unfold occurrences. rewrite filter_app, length_app. reflexivity. Qed.

Lemma occurrences_rigz_text (d : cdecl) (cxx : bool) :
  d = TSLanguage_typedef ∨ d = tree_sitter_rigz →
  occurrences d (rigz_text cxx) = 1.
Proof. intros [-> | ->]; destruct cxx; vm_compute; reflexivity. Qed.

Lemma occurrences_other (d : cdecl) (t : text) :
  t ≠ Declaration d → occurrences d [t] = 0.
Proof.
  intros Hne. unfold occurrences. rewrite filter_cons_False by exact Hne.
  reflexivity.
Qed.

Lemma guard_tracks_same (st st' : cpp) :
  macros st' = macros st → emitted st' = emitted st →
  guard_tracks st → guard_tracks st'.
Proof. intros Hm He Hst d Hd. rewrite Hm, He. exact (Hst d Hd). Qed.

Lemma guard_tracks_macro (st : cpp) (ms : gset string) :
  (guard ∈ ms ↔ guard ∈ macros st) →
  guard_tracks st → guard_tracks (Cpp ms (conds st) (emitted st)).
Proof.
  intros Hiff Hst d Hd. cbn [macros emitted].
  rewrite (bool_decide_ext _ _ Hiff).
  exact (Hst d Hd).
Qed.

(** Reading [rigz.h] keeps the guard in step with its declarations. *)
Lemma guard_tracks_rigz_h (st : cpp) :
  active st = true → guard_tracks st →
  guard_tracks (Cpp ({[ guard ]} ∪ macros st) (conds st)
                    (emitted st ++ rigz_out (macros st))).
Proof.
  intros Hact Hst d Hd. cbn [macros emitted].
  rewrite occurrences_app, (Hst d Hd).
  rewrite (bool_decide_eq_true_2 (guard ∈ {[guard]} ∪ macros st))
    by (apply elem_of_union_l, elem_of_singleton; reflexivity).
  unfold rigz_out. destruct (bool_decide (guard ∈ macros st)).
  - reflexivity.
  - rewrite occurrences_rigz_text by exact Hd. reflexivity.
Qed.

Lemma keeps_off_line (l : line) :
  ∀ st st', keeps_off l = true → cpp_line st l = Some st' →
            guard_tracks st → guard_tracks st'.
Proof.
  induction l as [m | m | m | m | | file IH | t |] using line_induction;
    intros st st' Hoff Hstep Hst.
  - injection Hstep as <-. exact Hst.
  - injection Hstep as <-. exact Hst.
  - cbn in Hoff. apply bool_decide_eq_true in Hoff.
    injection Hstep as <-. destruct (active st); [| exact Hst].
    apply guard_tracks_macro; [| exact Hst].
    rewrite elem_of_union, elem_of_singleton. split; [| auto].
    intros [Heq | Hin]; [congruence | exact Hin].
  - cbn in Hoff. apply bool_decide_eq_true in Hoff.
    injection Hstep as <-. destruct (active st); [| exact Hst].
    apply guard_tracks_macro; [| exact Hst].
    rewrite elem_of_difference, elem_of_singleton. split; [tauto |].
    intros Hin. split; [exact Hin | congruence].
  - cbn in Hstep. destruct (conds st); [discriminate |].
    injection Hstep as <-. exact Hst.
  - cbn [keeps_off] in Hoff. apply orb_true_iff in Hoff as [Hrigz | Hfile].
    + apply bool_decide_eq_true in Hrigz. subst file.
      destruct (active st) eqn:Hact.
      * rewrite include_rigz_h in Hstep by exact Hact.
        injection Hstep as <-. apply guard_tracks_rigz_h; assumption.
      * rewrite cpp_line_include, Hact in Hstep. injection Hstep as <-.
        exact Hst.
    + rewrite cpp_line_include in Hstep. destruct (active st);
        [| injection Hstep as <-; exact Hst].
      destruct (cpp_lines _ file) as [st1 |] eqn:Hrun; [| discriminate].
      assert (Hst1 : guard_tracks st1).
      { revert Hfile Hrun.
        generalize (Cpp (macros st) [] (emitted st))
                   (guard_tracks_same st (Cpp (macros st) [] (emitted st))
                                      eq_refl eq_refl Hst).
        induction IH as [| l file Hl _ IHfile]; intros st0 Hst0 Hfile Hrun.
        - injection Hrun as <-. exact Hst0.
        - cbn in Hfile. apply andb_true_iff in Hfile as [Hoff_l Hoff_file].
          cbn [cpp_lines] in Hrun.
          destruct (cpp_line st0 l) as [st0' |] eqn:Hl0; [| discriminate].
          exact (IHfile st0' (Hl st0 st0' Hoff_l Hl0 Hst0) Hoff_file Hrun). }
      unfold close_file in Hstep. destruct (conds st1); [| discriminate].
      injection Hstep as <-.
      exact (guard_tracks_same st1 _ eq_refl eq_refl Hst1).
  - cbn in Hoff. apply bool_decide_eq_true in Hoff as [Hty Hfn].
    injection Hstep as <-. destruct (active st); [| exact Hst].
    intros d Hd. cbn [macros emitted]. rewrite occurrences_app, (Hst d Hd).
    rewrite occurrences_other by (destruct Hd as [-> | ->]; assumption).
    lia.
  - injection Hstep as <-. exact Hst.
Qed.

Lemma keeps_off_lines (ls : list line) :
  ∀ st st', forallb keeps_off ls = true → cpp_lines st ls = Some st' →
            guard_tracks st → guard_tracks st'.
Proof.
  induction ls as [| l ls IH]; intros st st' Hoff Hrun Hst.
  - injection Hrun as <-. exact Hst.
  - cbn in Hoff. apply andb_true_iff in Hoff as [Hoff_l Hoff_ls].
    cbn [cpp_lines] in Hrun.
    destruct (cpp_line st l) as [st1 |] eqn:Hl; [| discriminate].
    exact (IH st1 st' Hoff_ls Hrun (keeps_off_line l st st1 Hoff_l Hl Hst)).
Qed.

(** X3.  However a translation unit reaches [rigz.h] -- directly, through
    other headers, inside conditional groups, any number of times -- as long as
    its own lines leave the guard macro alone and do not write the
    header's two declarations themselves: when the unit has been read,
    each of the two declarations has come out exactly once if the guard is
    defined, and not at all if it is not.  So neither is ever declared
    twice, and a defined guard never stands for a declaration that was not
    made. *)
Theorem declared_once_in_any_unit (ms ms' : gset string) (tu : list line)
    (out : list text) :
  bool_decide (guard ∈ ms) = false →
  forallb keeps_off tu = true →
  preprocess ms tu = Some (ms', out) →
  occurrences TSLanguage_typedef out
  = (if bool_decide (guard ∈ ms') then 1 else 0)
  ∧ occurrences tree_sitter_rigz out
    = (if bool_decide (guard ∈ ms') then 1 else 0).
Proof.
  intros Hfresh Hoff Hrun. unfold preprocess in Hrun.
  destruct (cpp_lines (Cpp ms [] []) tu) as [st |] eqn:Hlines;
    [| discriminate].
  destruct (conds st); [| discriminate]. injection Hrun as <- <-.
  assert (Hst : guard_tracks st).
  { apply (keeps_off_lines tu (Cpp ms [] []) st Hoff Hlines).
    intros d _. cbn. rewrite Hfresh. reflexivity. }
  split; apply Hst; [left | right]; reflexivity.
Qed.

(** The statement at work, on [sample_unit]: both headers' guards end up
    defined, and each declaration has come out once. *)
Lemma declared_once_in_any_unit_witness :
  preprocess ∅ sample_unit
  = Some ({[ guard ]} ∪ ({[ "OTHER_H" ]} ∪ ∅),
          [Declaration TSLanguage_typedef; Declaration tree_sitter_rigz;
           Declaration (DFunction TVoid "other" [])])
  ∧ occurrences TSLanguage_typedef
      [Declaration TSLanguage_typedef; Declaration tree_sitter_rigz;
       Declaration (DFunction TVoid "other" [])]
    = (if bool_decide (guard ∈ ({[ guard ]} ∪ ({[ "OTHER_H" ]} ∪ ∅)
                               : gset string))
       then 1 else 0)
  ∧ occurrences tree_sitter_rigz
      [Declaration TSLanguage_typedef; Declaration tree_sitter_rigz;
       Declaration (DFunction TVoid "other" [])]
    = (if bool_decide (guard ∈ ({[ guard ]} ∪ ({[ "OTHER_H" ]} ∪ ∅)
                               : gset string))
       then 1 else 0).
Proof.
  assert (Hrun : preprocess ∅ sample_unit
                 = Some ({[ guard ]} ∪ ({[ "OTHER_H" ]} ∪ ∅),
                         [Declaration TSLanguage_typedef;
                          Declaration tree_sitter_rigz;
                          Declaration (DFunction TVoid "other" [])]))
    by (vm_compute; reflexivity).
  split; [exact Hrun |].
  apply (declared_once_in_any_unit ∅ _ sample_unit _);
    [vm_compute; reflexivity | vm_compute; reflexivity | exact Hrun].
Defined.

End UsageFacts.

(** * Facts about the scanner *)

Section ScannerFacts.
Import Scanner.

Lemma longest_prefix_Some accepts rest k n :
  longest_prefix accepts rest k = Some n →
  1 ≤ n ≤ k ∧ accepts (take n rest) = true
  ∧ ∀ n', n < n' ≤ k → accepts (take n' rest) = false.
Proof.
  induction k as [| k IH]; cbn [longest_prefix]; [discriminate |].
  destruct (accepts (take (S k) rest)) eqn:Hacc.
  - intros [= <-]. repeat split; [lia | lia | exact Hacc |]. intros n' Hn'. lia.
  - intros Hk. destruct (IH Hk) as (Hrange & Hn & Hlonger).
    repeat split; [lia | lia | exact Hn |].
    intros n' Hn'. destruct (decide (n' = S k)) as [-> | Hne];
      [exact Hacc | apply Hlonger; lia].
Qed.

Lemma longest_prefix_None accepts rest k :
  longest_prefix accepts rest k = None →
  ∀ n', 1 ≤ n' ≤ k → accepts (take n' rest) = false.
Proof.
  induction k as [| k IH]; cbn [longest_prefix]; [intros _ n' Hn'; lia |].
  destruct (accepts (take (S k) rest)) eqn:Hacc; [discriminate |].
  intros Hk n' Hn'. destruct (decide (n' = S k)) as [-> | Hne];
    [exact Hacc | apply IH; [exact Hk | lia]].
Qed.

Lemma rule_match_Some r rest n :
  rule_match r rest = Some n →
  token_match r rest 0 n ∧ ∀ n', token_match r rest 0 n' → n' ≤ n.
Proof.
  unfold rule_match, token_match. intros Hm.
  destruct (longest_prefix_Some _ _ _ _ Hm) as (Hrange & Hacc & Hlonger).
  rewrite drop_0. split; [repeat split; [lia | cbn; lia | exact Hacc] |].
  intros n' (H1 & H2 & Hacc').
  destruct (decide (n' ≤ n)) as [Hle | Hgt]; [exact Hle |].
  rewrite Hlonger in Hacc' by (cbn in H2; lia). discriminate Hacc'.
Qed.

Lemma rule_match_None r rest n :
  rule_match r rest = None → token_match r rest 0 n → False.
Proof.
  unfold rule_match, token_match. intros Hm (H1 & H2 & Hacc).
  rewrite drop_0 in Hacc.
  rewrite (longest_prefix_None _ _ _ Hm) in Hacc by (cbn in H2; lia).
  discriminate Hacc.
Qed.

Lemma outranks_true a b :
  outranks a b = true ↔
  m_len b < m_len a ∨ (m_len a = m_len b ∧ (m_priority b < m_priority a)%Z).
Proof.
  unfold outranks.
  rewrite orb_true_iff, andb_true_iff, Nat.ltb_lt, Nat.eqb_eq, Z.ltb_lt.
  reflexivity.
Qed.

Lemma best_of_None_snoc valid rest pre r :
  best_of valid rest pre None →
  (valid (tok_symbol r) = true → ∀ n, token_match r rest 0 n → False) →
  best_of valid rest (pre ++ [r]) None.
Proof.
  intros Hpre Hr j r' n Hj Hv Hm.
  apply lookup_snoc_Some in Hj as [[_ Hj] | [_ <-]];
    [exact (Hpre j r' n Hj Hv Hm) | exact (Hr Hv n Hm)].
Qed.

Lemma best_of_keep valid rest pre r m :
  best_of valid rest pre (Some m) →
  (valid (tok_symbol r) = true → ∀ n, token_match r rest 0 n →
     n ≤ m_len m ∧ (n = m_len m → (tok_priority r ≤ m_priority m)%Z)) →
  best_of valid rest (pre ++ [r]) (Some m).
Proof.
  intros [(r0 & Hi & Hv0 & Hs0 & Hp0 & Hm0) Hbest] Hr. split.
  - exists r0. rewrite lookup_app_l by (eapply lookup_lt_Some, Hi). auto.
  - intros j r' n Hj Hv Hm.
    apply lookup_snoc_Some in Hj as [[_ Hj] | [-> <-]];
      [exact (Hbest j r' n Hj Hv Hm) |].
    destruct (Hr Hv n Hm) as [Hle Hprio]. split; [exact Hle |].
    intros Heq. split; [exact (Hprio Heq) |].
    intros _. apply Nat.lt_le_incl. eapply lookup_lt_Some, Hi.
Qed.

Lemma best_of_replace valid rest pre r n best :
  best_of valid rest pre best →
  valid (tok_symbol r) = true →
  token_match r rest 0 n →
  (∀ n', token_match r rest 0 n' → n' ≤ n) →
  (∀ b, best = Some b →
        m_len b < n ∨ (n = m_len b ∧ (m_priority b < tok_priority r)%Z)) →
  best_of valid rest (pre ++ [r])
          (Some {| m_len := n; m_priority := tok_priority r;
                   m_index := length pre; m_symbol := tok_symbol r |}).
Proof.
  intros Hpre Hv Hm Hlongest Hout. split; cbn.
  - exists r. rewrite lookup_app_r, Nat.sub_diag by lia. auto.
  - intros j r' n' Hj Hv' Hm'.
    apply lookup_snoc_Some in Hj as [[Hlt Hj] | [-> <-]].
    + destruct best as [b |]; cbn in Hpre.
      * destruct Hpre as [_ Hbest].
        destruct (Hbest j r' n' Hj Hv' Hm') as [Hle Hprio].
        destruct (Hout b eq_refl) as [Hlen | [-> Hp]].
        -- split; [lia | intros ->; lia].
        -- split; [exact Hle |]. intros Heq. destruct (Hprio Heq). lia.
      * destruct (Hpre j r' n' Hj Hv' Hm').
    + split; [apply Hlongest, Hm' |]. intros _. split; [lia | intros _; lia].
Qed.

Lemma best_match_best valid rest rules pre best :
  best_of valid rest pre best →
  best_of valid rest (pre ++ rules)
          (best_match valid rest (length pre) rules best).
Proof.
  revert pre best. induction rules as [| r rules IH]; intros pre best Hpre.
  - rewrite app_nil_r. exact Hpre.
  - cbn [best_match].
    replace (pre ++ r :: rules) with ((pre ++ [r]) ++ rules)
      by (rewrite <- app_assoc; reflexivity).
    replace (S (length pre)) with (length (pre ++ [r]))
      by (rewrite length_app; cbn; lia).
    apply IH.
    destruct (valid (tok_symbol r)) eqn:Hv.
    2:{ destruct best as [b |];
          [apply best_of_keep; [exact Hpre | congruence]
          | apply best_of_None_snoc; [exact Hpre | congruence]]. }
    destruct (rule_match r rest) as [n |] eqn:Hrm.
    2:{ destruct best as [b |].
        - apply best_of_keep; [exact Hpre |]. intros _ n Hn.
          destruct (rule_match_None _ _ _ Hrm Hn).
        - apply best_of_None_snoc; [exact Hpre |]. intros _ n Hn.
          exact (rule_match_None _ _ _ Hrm Hn). }
    destruct (rule_match_Some _ _ _ Hrm) as [Hm Hlongest].
    destruct best as [b |].
    + destruct (outranks _ b) eqn:Hout.
      * apply (best_of_replace _ _ _ _ _ (Some b));
          [exact Hpre | exact Hv | exact Hm | exact Hlongest |].
        intros b' [= <-]. apply outranks_true in Hout. cbn in Hout. lia.
      * apply best_of_keep; [exact Hpre |]. intros _ n' Hn'.
        specialize (Hlongest n' Hn').
        assert (Hno : ¬ (m_len b < n
                         ∨ (n = m_len b
                            ∧ (m_priority b < tok_priority r)%Z))).
        { intros Hyes. apply (outranks_true
            {| m_len := n; m_priority := tok_priority r;
               m_index := length pre; m_symbol := tok_symbol r |} b) in Hyes.
          congruence. }
        split; [lia | intros ->; lia].
    + apply (best_of_replace _ _ _ _ _ None);
        [exact Hpre | exact Hv | exact Hm | exact Hlongest | discriminate].
Qed.

Lemma token_match_drop r input pos n :
  token_match r input pos n ↔
  token_match r (drop pos input) 0 n ∧ (1 ≤ n → pos + n ≤ length input).
Proof.
  unfold token_match. rewrite drop_0, length_drop. cbn. split.
  - intros (H1 & H2 & H3). repeat split; [lia | lia | exact H3 | lia].
  - intros [(H1 & H2 & H3) H4]. repeat split; [lia | lia | exact H3].
Qed.

(** C7.  For every cursor position and every valid-symbol set, the
    scanner returns a token that starts at the cursor and leaves the
    cursor at the token's end.  Either the token comes from a rule of the
    valid set that matches there, no valid rule has a longer match, among
    the valid rules with a match of that length none has a higher
    priority, and among those of that priority none is declared earlier;
    or no valid rule matches at all, and the token is an [ERROR] token of
    exactly one byte, the cursor advancing by one.  With a byte left at
    the cursor, the token ends inside the input. *)
Theorem scanner_contract (G : GrammarTable) (valid : Symbol → bool)
    (input : list byte) (pos : nat) :
  let tok := (scan G valid input pos).1 in
  let next := (scan G valid input pos).2 in
  token_start tok = pos ∧ next = token_end tok
  ∧ ((∃ i r,
        gt_tokens G !! i = Some r ∧ valid (tok_symbol r) = true
        ∧ token_symbol tok = tok_symbol r
        ∧ token_match r input pos (token_end tok - pos)
        ∧ ∀ j r' n,
            gt_tokens G !! j = Some r' → valid (tok_symbol r') = true →
            token_match r' input pos n →
            n ≤ token_end tok - pos
            ∧ (n = token_end tok - pos →
               (tok_priority r' ≤ tok_priority r)%Z
               ∧ (tok_priority r' = tok_priority r → i ≤ j)))
     ∨ ((∀ j r' n,
           gt_tokens G !! j = Some r' → valid (tok_symbol r') = true →
           ¬ token_match r' input pos n)
        ∧ token_symbol tok = ERROR
        ∧ token_end tok = pos + 1 ∧ next = pos + 1))
  ∧ (pos < length input → token_end tok ≤ length input).
Proof.
  cbv zeta. unfold scan.
  pose proof (best_match_best valid (drop pos input) (gt_tokens G) [] None)
    as Hbest.
  cbn [app length] in Hbest.
  destruct (best_match valid (drop pos input) 0 (gt_tokens G) None)
    as [m |]; cbn [fst snd token_start token_end token_symbol].
  - destruct Hbest as [(r & Hi & Hv & Hs & Hp & Hm) Hall].
    { intros j r n Hj. rewrite lookup_nil in Hj. discriminate Hj. }
    assert (Hmatch : token_match r input pos (m_len m)).
    { apply token_match_drop. split; [exact Hm |]. intros _.
      destruct Hm as (Hpos & Hlen & _). rewrite length_drop in Hlen.
      cbn in Hlen. lia. }
    split; [reflexivity |]. split; [reflexivity |].
    split; [| intros _; destruct Hmatch as (_ & Hend & _); exact Hend].
    left. replace (pos + m_len m - pos) with (m_len m) by lia.
    exists (m_index m), r.
    split; [exact Hi |]. split; [exact Hv |]. split; [exact Hs |].
    split; [exact Hmatch |].
    intros j r' n Hj Hv' Hm'. apply token_match_drop in Hm' as [Hm' _].
    destruct (Hall j r' n Hj Hv' Hm') as [Hle Hprio].
    split; [exact Hle |]. intros Heq. rewrite <- Hp. exact (Hprio Heq).
  - split; [reflexivity |]. split; [reflexivity |]. split; [| lia]. right.
    split; [| repeat split; reflexivity].
    intros j r' n Hj Hv Hm. apply token_match_drop in Hm as [Hm _].
    refine (Hbest _ j r' n Hj Hv Hm).
    intros j' r n' Hj'. rewrite lookup_nil in Hj'. discriminate Hj'.
Qed.

(** *** The scanner on the sample table *)

(** The longest match wins: [12] rather than [1], [++] rather than [+]. *)
Example scan_longest_number :
  scan Sample.table Sample.everything (Sample.bytes "12+3") 0
  = ({| token_symbol := Sample.NUMBER; token_start := 0; token_end := 2 |}, 2).
Proof. vm_compute. reflexivity. Qed.

Example scan_longest_operator :
  scan Sample.table Sample.everything (Sample.bytes "1++2") 1
  = ({| token_symbol := Sample.INCREMENT; token_start := 1;
        token_end := 3 |}, 3).
Proof. vm_compute. reflexivity. Qed.

(** Of two matches of the same length the higher priority wins, although
    it is declared later ... *)
Example scan_priority :
  scan Sample.table Sample.everything (Sample.bytes "if 1") 0
  = ({| token_symbol := Sample.KEYWORD_IF; token_start := 0;
        token_end := 2 |}, 2).
Proof. vm_compute. reflexivity. Qed.

(** ... but a longer match beats a higher priority. *)
Example scan_longest_before_priority :
  scan Sample.table Sample.everything (Sample.bytes "iffy") 0
  = ({| token_symbol := Sample.WORD; token_start := 0; token_end := 4 |}, 4).
Proof. vm_compute. reflexivity. Qed.

(** Of two rules of the same priority matching the same bytes, the one
    declared first wins. *)
Example scan_declaration_order :
  scan {| gt_symbols := []; gt_rules := [];
          gt_tokens :=
            [ {| tok_symbol := Sample.WORD; tok_priority := 0;
                 tok_accepts := Sample.nonempty_all Sample.is_lower |};
              {| tok_symbol := Sample.KEYWORD_IF; tok_priority := 0;
                 tok_accepts := Sample.exactly "if" |} ];
          gt_actions := ∅ |}
       Sample.everything (Sample.bytes "if") 0
  = ({| token_symbol := Sample.WORD; token_start := 0; token_end := 2 |}, 2).
Proof. vm_compute. reflexivity. Qed.

(** Only the rules of the valid-symbol set are tried. *)
Example scan_valid_set :
  scan Sample.table (λ x, bool_decide (x = Sample.PLUS))
       (Sample.bytes "1++2") 1
  = ({| token_symbol := Sample.PLUS; token_start := 1; token_end := 2 |}, 2).
Proof. vm_compute. reflexivity. Qed.

(** No rule matches a question mark: a one-byte [ERROR] token, and the
    cursor moves on by one. *)
Example scan_error :
  scan Sample.table Sample.everything (Sample.bytes "1?2") 1
  = ({| token_symbol := ERROR; token_start := 1; token_end := 2 |}, 2).
Proof. vm_compute. reflexivity. Qed.

End ScannerFacts.
